(** * ksbuilder: a shallow embedding of [ksbuilder.go]

    The program collects certificates and a private key from PEM files,
    sorts the certificates by role into a [pkcs12File] and hands the
    result to the PKCS#12 encoder.  This file embeds the three methods of
    [pkcs12File] ([addCertificate], [addKey], [writeFile]), the directory
    walk and the per-file decoding loop of [main], and states the
    properties of the specification over them.

    Conventions.
    - A Go pointer [*T] is an [option T]: [None] is [nil].
    - A Go [error] is an [option error]: [None] is [nil].
    - A method with a pointer receiver becomes a function returning the
      updated receiver next to its Go result.
    - Calls that leave the program (the PKCS#12 encoder, [os.WriteFile])
      act on a [World] that records every call with its arguments. *)

From Stdlib Require Import ZArith NArith Ascii String List Lia Bool.
From stdpp Require Import base strings gmap list.
Import ListNotations.
Local Open Scope string_scope.
Set Warnings "-register-all".

(** ** Data model *)

Definition bytes := list Byte.byte.

(** [error] values.  [errors_New] is Go's [errors.New]; [SkipDir] is the
    sentinel of [path/filepath], which Go compares by identity. *)
Inductive error : Type :=
| errors_New (msg : string)
| SkipDir.

Definition Error (e : error) : string :=
  match e with
  | errors_New msg => msg
  | SkipDir => "skip this directory"
  end.

Definition error_eqb (a b : error) : bool :=
  match a, b with
  | errors_New x, errors_New y => String.eqb x y
  | SkipDir, SkipDir => true
  | _, _ => false
  end.

(** [pkix.Name], seen through the only thing the program reads from it:
    the text its [String] method renders. *)
Record Name : Type := mkName { Name_String : string }.

(** [x509.Certificate], with the fields the program reads and the DER
    bytes that tell two certificates apart. *)
Record Certificate : Type := mkCertificate {
  Raw : bytes;
  IsCA : bool;
  Issuer : Name;
  Subject : Name
}.

(** [rsa.PrivateKey]: modulus, public and private exponent. *)
Record PrivateKey : Type := mkPrivateKey {
  key_N : Z;
  key_E : Z;
  key_D : Z
}.

(** [type pkcs12File struct] *)
Record pkcs12File : Type := mkP12 {
  cacerts : list (option Certificate);
  intermediatecerts : list (option Certificate);
  privkey : option PrivateKey;
  entitycert : option Certificate
}.

(** [pkcs12File{}], the zero value [main] starts from. *)
Definition empty_p12 : pkcs12File :=
  {| cacerts := []; intermediatecerts := []; privkey := None; entitycert := None |}.

(** The error values of the three methods, under the names the
    specification gives them. *)
Definition DuplicateEndEntity : error :=
  errors_New "cannot have two end-entity certs in keystore. The only one should be for the keystore's private key".

Definition DuplicateKey : error :=
  errors_New "cannot have two private keys in keystore".

Definition MissingEndEntityCert : error :=
  errors_New "failed to generate keystore because privkey was set but found no matching end-entity certificate".

(** ** The classifier *)

(** [func (p12 *pkcs12File) addCertificate(cert *x509.Certificate) error] *)
Definition addCertificate (p12 : pkcs12File) (cert : option Certificate)
  : pkcs12File * option error :=
  match cert with
  | Some c =>
      if IsCA c then
        if String.eqb (Name_String (Issuer c)) (Name_String (Subject c)) then
          ({| cacerts := (cacerts p12 ++ [cert])%list;
              intermediatecerts := intermediatecerts p12;
              privkey := privkey p12;
              entitycert := entitycert p12 |}, None)
        else
          ({| cacerts := cacerts p12;
              intermediatecerts := (intermediatecerts p12 ++ [cert])%list;
              privkey := privkey p12;
              entitycert := entitycert p12 |}, None)
      else
        match entitycert p12 with
        | Some _ => (p12, Some DuplicateEndEntity)
        | None =>
            ({| cacerts := cacerts p12;
                intermediatecerts := intermediatecerts p12;
                privkey := privkey p12;
                entitycert := cert |}, None)
        end
  | None => (p12, None)
  end.

(** [func (p12 *pkcs12File) addKey(key *rsa.PrivateKey) error].
    The body reads [p12.privkey] and assigns no field. *)
Definition addKey (p12 : pkcs12File) (key : option PrivateKey)
  : pkcs12File * option error :=
  match key with
  | Some _ =>
      match privkey p12 with
      | Some _ => (p12, Some DuplicateKey)
      | None => (p12, None)
      end
  | None => (p12, None)
  end.

(** ** The world outside the program *)

(** [fs.FileMode] is a [uint32]. *)
Definition FileMode := N.

(** One call that leaves the program, with its arguments. *)
Inductive Event : Type :=
| EvEncode (key : option PrivateKey) (cert : option Certificate)
           (chain : list (option Certificate)) (password : string)
| EvEncodeTrustStore (chain : list (option Certificate)) (password : string)
| EvWriteFile (name : string) (data : bytes) (perm : FileMode).

(** What the program has written and which calls it has made, oldest
    first. *)
Record World : Type := mkWorld {
  written : gmap string (bytes * FileMode);
  calls : list Event
}.

Definition empty_world : World := {| written := ∅; calls := [] |}.

Definition log (ev : Event) (w : World) : World :=
  {| written := written w; calls := (calls w ++ [ev])%list |}.

(** [filepath.Walk] sees a tree of names: a file, or a directory with its
    entries in the order [readDirNames] returns them (sorted by name). *)
Inductive node : Type :=
| File
| Dir (entries : list (string * node)).

Definition node_IsDir (n : node) : bool :=
  match n with File => false | Dir _ => true end.

(** [pem.Block], without its headers. *)
Record Block : Type := mkBlock { Type_ : string; Bytes : bytes }.

(** The dynamic type of what [x509.ParsePKCS8PrivateKey] returns as
    [any]: nothing, an [*rsa.PrivateKey], or a key of another kind. *)
Inductive anykey : Type :=
| AnyNil
| AnyRSA (k : option PrivateKey)
| AnyOther.

(** The library and system calls the program makes, as answers chosen by
    the environment. *)
Record Env : Type := mkEnv {
  filepath_Abs : string -> string * option error;
  os_Lstat : string -> node * option error;
  os_ReadFile : string -> bytes * option error;
  pem_Decode : bytes -> option Block * bytes;
  x509_ParsePKCS8PrivateKey : bytes -> anykey * option error;
  x509_ParsePKCS1PrivateKey : bytes -> option PrivateKey * option error;
  x509_ParseCertificates : bytes -> list (option Certificate) * option error;
  encode_answer : option PrivateKey -> option Certificate ->
                  list (option Certificate) -> string -> bytes * option error;
  encode_trust_answer : list (option Certificate) -> string -> bytes * option error;
  write_answer : string -> option error
}.

(** [pkcs12.Encode(rand.Reader, key, cert, chain, password)] *)
Definition pkcs12_Encode (E : Env) (key : option PrivateKey) (cert : option Certificate)
    (chain : list (option Certificate)) (password : string) (w : World)
  : World * (bytes * option error) :=
  (log (EvEncode key cert chain password) w, encode_answer E key cert chain password).

(** [pkcs12.EncodeTrustStore(rand.Reader, chain, password)] *)
Definition pkcs12_EncodeTrustStore (E : Env) (chain : list (option Certificate))
    (password : string) (w : World) : World * (bytes * option error) :=
  (log (EvEncodeTrustStore chain password) w, encode_trust_answer E chain password).

(** [os.WriteFile(name, data, perm)] *)
Definition os_WriteFile (E : Env) (name : string) (data : bytes) (perm : FileMode)
    (w : World) : World * option error :=
  let w1 := log (EvWriteFile name data perm) w in
  match write_answer E name with
  | Some e => (w1, Some e)
  | None => ({| written := <[name := (data, perm)]> (written w1); calls := calls w1 |}, None)
  end.

(** ** The assembler *)

(** [func (p12 *pkcs12File) writeFile(path, storepass string, perm fs.FileMode) (err error)] *)
Definition writeFile (E : Env) (p12 : pkcs12File) (path storepass : string)
    (perm : FileMode) (w : World) : World * option error :=
  let allcerts := (cacerts p12 ++ intermediatecerts p12)%list in
  match privkey p12 with
  | Some _ =>
      match entitycert p12 with
      | None => (w, Some MissingEndEntityCert)
      | Some _ =>
          let '(w1, (payload, err)) :=
            pkcs12_Encode E (privkey p12) (entitycert p12) allcerts storepass w in
          match err with
          | Some e => (w1, Some e)
          | None => os_WriteFile E path payload perm w1
          end
      end
  | None =>
      let '(w1, (payload, err)) := pkcs12_EncodeTrustStore E allcerts storepass w in
      match err with
      | Some e => (w1, Some e)
      | None => os_WriteFile E path payload perm w1
      end
  end.

(** ** Collecting the candidate files *)

(** [filepath.Ext]: scan back from the end of [path] to the last dot,
    stopping at a path separator. *)
Fixpoint Ext_scan (rev_path : list ascii) (suffix : list ascii) : list ascii :=
  match rev_path with
  | [] => []
  | c :: before =>
      if Ascii.eqb c "/"%char then []
      else if Ascii.eqb c "."%char then c :: suffix
      else Ext_scan before (c :: suffix)
  end.

Definition filepath_Ext (path : string) : string :=
  string_of_list_ascii (Ext_scan (rev (list_ascii_of_string path)) []).

(** [filepath.Join] of a directory path and one entry name. *)
Definition filepath_Join (dir name : string) : string :=
  match rev (list_ascii_of_string dir) with
  | c :: _ => if Ascii.eqb c "/"%char then dir +:+ name else dir +:+ "/" +:+ name
  | [] => name
  end.

(** [fs.FileInfo], of which the program calls [IsDir] only. *)
Record FileInfo : Type := mkFileInfo { IsDir : bool }.

(** What [filepath.Walk] hands to its callback next to the path: the
    [FileInfo] of an entry it could stat, or the error of the failed
    [Lstat] with a nil [FileInfo]. *)
Inductive visit : Type :=
| Visit (info : FileInfo)
| VisitErr (err : error).

Definition WalkFunc (S : Type) : Type := string -> visit -> S -> S * option error.

(** [walk] of [path/filepath] (Go 1.17) on a readable tree. *)
Fixpoint walk {S : Type} (walkFn : WalkFunc S) (path : string) (n : node) (s : S)
  : S * option error :=
  match n with
  | File => walkFn path (Visit {| IsDir := false |}) s
  | Dir entries =>
      let '(s1, err1) := walkFn path (Visit {| IsDir := true |}) s in
      match err1 with
      | Some e => (s1, Some e)
      | None =>
          (fix range (names : list (string * node)) (s : S) : S * option error :=
             match names with
             | [] => (s, None)
             | (name, child) :: rest =>
                 let '(s', err) := walk walkFn (filepath_Join path name) child s in
                 match err with
                 | Some e =>
                     if negb (node_IsDir child) || negb (error_eqb e SkipDir)
                     then (s', Some e)
                     else range rest s'
                 | None => range rest s'
                 end
             end) entries s1
      end
  end.

(** [filepath.Walk(root, fn)] *)
Definition filepath_Walk {S : Type} (E : Env) (root : string) (fn : WalkFunc S) (s : S)
  : S * option error :=
  let '(s1, err) :=
    match os_Lstat E root with
    | (_, Some e) => fn root (VisitErr e) s
    | (n, None) => walk fn root n s
    end in
  match err with
  | Some e => if error_eqb e SkipDir then (s1, None) else (s1, Some e)
  | None => (s1, None)
  end.

(** The two slices of [main] that the walk appends to. *)
Record Collected : Type := mkCollected {
  certdirs : list string;
  certfiles : list string
}.

(** The function literal [main] passes to [filepath.Walk]; [recurse] and
    [dir] are the variables it closes over. *)
Definition walkFn (recurse : bool) (dir : string) : WalkFunc Collected :=
  fun path v st =>
    match v with
    | VisitErr err => (st, Some err)
    | Visit info =>
        if IsDir info then
          if negb (String.eqb path dir) then
            if recurse then
              ({| certdirs := (certdirs st ++ [path])%list; certfiles := certfiles st |}, None)
            else (st, None)
          else (st, None)
        else
          let extension := filepath_Ext path in
          if negb (String.eqb extension ".crt") && negb (String.eqb extension ".key")
             && negb (String.eqb extension ".pem")
          then (st, None)
          else ({| certdirs := certdirs st; certfiles := (certfiles st ++ [path])%list |}, None)
    end.

(** The body of [for _, dir := range certdirs], over the directories
    still to visit.  A [Some] error is the one [check] panics with. *)
Fixpoint walkDirs (E : Env) (recurse : bool) (dirs : list string) (st : Collected)
  : Collected * option error :=
  match dirs with
  | [] => (st, None)
  | dir0 :: rest =>
      let dir := match filepath_Abs E dir0 with
                 | (tmppath, None) => tmppath
                 | (_, Some _) => dir0
                 end in
      let '(st1, err) := filepath_Walk E dir (walkFn recurse dir) st in
      match err with
      | Some e => (st1, Some e)
      | None => walkDirs E recurse rest st1
      end
  end.

(** ** Decoding the candidate files *)

(** What [panic] is called with: an [error] (through [check]) or a
    string. *)
Inductive panic_value : Type :=
| PanicError (e : error)
| PanicString (s : string).

(** How a piece of [main] ends: it falls through with a value, it
    panics, or the model's loop bound was too small. *)
Inductive result (A : Type) : Type :=
| Ok (a : A)
| Panic (v : panic_value)
| OutOfFuel.
Arguments Ok {A} a.
Arguments Panic {A} v.
Arguments OutOfFuel {A}.

#[global] Instance result_bind : MBind result :=
  fun A B (k : A -> result B) (r : result A) =>
    match r with
    | Ok a => k a
    | Panic v => Panic v
    | OutOfFuel => OutOfFuel
    end.

(** [func check(e error)] *)
Definition check (e : option error) : result unit :=
  match e with
  | Some e => Panic (PanicError e)
  | None => Ok tt
  end.

(** [check(p12.addKey(privkey))], keeping the receiver. *)
Definition check_addKey (p12 : pkcs12File) (privkey : option PrivateKey)
  : result pkcs12File :=
  let '(p12', e) := addKey p12 privkey in
  _ ← check e; Ok p12'.

(** The loop [for { block, bytes = pem.Decode(bytes) ... }] of [main].
    [path] and [err] are the variables of the enclosing loop body: [err]
    is the one declared by [bytes, err := os.ReadFile(path)].  The [err]
    that the "RSA PRIVATE KEY" case declares in its [if] statement is
    [err1] here; its scope ends with that [if]. *)
Fixpoint decodeLoop (E : Env) (path : string) (err : option error) (fuel : nat)
    (bytes_ : bytes) (p12 : pkcs12File) (certsBytes : bytes)
  : result (pkcs12File * bytes) :=
  match fuel with
  | O => OutOfFuel
  | S fuel' =>
      match pem_Decode E bytes_ with
      | (None, _) => Ok (p12, certsBytes)
      | (Some block, rest) =>
          if String.eqb (Type_ block) "PRIVATE KEY" then
            let '(parseResult, _) := x509_ParsePKCS8PrivateKey E (Bytes block) in
            match parseResult with
            | AnyRSA privkey =>
                p12' ← check_addKey p12 privkey;
                decodeLoop E path err fuel' rest p12' certsBytes
            | _ =>
                _ ← check (Some (errors_New ("failed to parse private key from " +:+ path)));
                decodeLoop E path err fuel' rest p12 certsBytes
            end
          else if String.eqb (Type_ block) "RSA PRIVATE KEY" then
            let '(privkey, err1) := x509_ParsePKCS1PrivateKey E (Bytes block) in
            p12' ← match err1 with
                    | None => check_addKey p12 privkey
                    | Some _ => Ok p12
                    end;
            _ ← check err;
            decodeLoop E path err fuel' rest p12' certsBytes
          else if String.eqb (Type_ block) "CERTIFICATE" then
            decodeLoop E path err fuel' rest p12 (certsBytes ++ Bytes block)%list
          else
            decodeLoop E path err fuel' rest p12 certsBytes
      end
  end.

(** [for _, cert := range certs { ... p12.addCertificate(cert) ... }] *)
Fixpoint addCertificates (path : string) (certs : list (option Certificate))
    (p12 : pkcs12File) : result pkcs12File :=
  match certs with
  | [] => Ok p12
  | cert :: rest =>
      let '(p12', err) := addCertificate p12 cert in
      match err with
      | Some e =>
          _ ← check (Some (errors_New
                 ("failed to parse a certificate in " +:+ path +:+ ": " +:+ Error e)));
          addCertificates path rest p12'
      | None => addCertificates path rest p12'
      end
  end.

(** The body of [for _, path := range certfiles]. *)
Definition processFile (E : Env) (path : string) (p12 : pkcs12File) : result pkcs12File :=
  let '(bytes_, err) := os_ReadFile E path in
  _ ← match err with
       | Some e => check (Some (errors_New ("failed to load " +:+ path +:+ ": " +:+ Error e)))
       | None => Ok tt
       end;
  '(p12', certsBytes) ← decodeLoop E path err (S (length bytes_)) bytes_ p12 [];
  let '(certs, err2) := x509_ParseCertificates E certsBytes in
  _ ← match err2 with
       | Some e =>
           check (Some (errors_New
             ("failed to parse certificate in " +:+ path +:+ ": " +:+ Error e)))
       | None => Ok tt
       end;
  addCertificates path certs p12'.

Fixpoint processFiles (E : Env) (paths : list string) (p12 : pkcs12File)
  : result pkcs12File :=
  match paths with
  | [] => Ok p12
  | path :: rest => p12' ← processFile E path p12; processFiles E rest p12'
  end.

(** ** The program *)

(** The variables [flag.Parse] has filled in. *)
Record Flags : Type := mkFlags {
  flag_out : string;
  flag_password : string;
  flag_dir : list string;
  flag_file : list string;
  flag_recursive : bool
}.

(** [pkcs12.DefaultPassword] of [software.sslmate.com/src/go-pkcs12]. *)
Definition pkcs12_DefaultPassword : string := "changeit".

(** [func main()], after [flag.Parse] and without its printing. *)
Definition main (E : Env) (f : Flags) (w : World) : World * result unit :=
  if String.eqb (flag_out f) "" then
    (w, Panic (PanicString "The variable 'outfile' cannot be nil."))
  else
    let storepass :=
      if String.eqb (flag_password f) "" then pkcs12_DefaultPassword else flag_password f in
    let '(st, err) :=
      walkDirs E (flag_recursive f) (flag_dir f)
        {| certdirs := flag_dir f; certfiles := flag_file f |} in
    match check err with
    | Ok _ =>
        match processFiles E (certfiles st) empty_p12 with
        | Ok p12 =>
            let '(w1, err) := writeFile E p12 (flag_out f) storepass 420%N w in
            (w1, check err)
        | Panic v => (w, Panic v)
        | OutOfFuel => (w, OutOfFuel)
        end
    | Panic v => (w, Panic v)
    | OutOfFuel => (w, OutOfFuel)
    end.

(** ** Vocabulary of the properties *)

(** A classification call, as [main] makes them on the aggregate. *)
Inductive call : Type :=
| CallAddKey (key : option PrivateKey)
| CallAddCertificate (cert : option Certificate).

(** The aggregate after one call; the error the call returns does not
    stop the sequence, so every order of calls is covered. *)
Definition after_call (p12 : pkcs12File) (c : call) : pkcs12File :=
  match c with
  | CallAddKey key => fst (addKey p12 key)
  | CallAddCertificate cert => fst (addCertificate p12 cert)
  end.

Definition after_calls (cs : list call) (p12 : pkcs12File) : pkcs12File :=
  fold_left after_call cs p12.

(** The calls made between two worlds. *)
Definition calls_since (w w' : World) : list Event :=
  drop (length (calls w)) (calls w').

Definition is_encode (ev : Event) : bool :=
  match ev with
  | EvEncode _ _ _ _ | EvEncodeTrustStore _ _ => true
  | EvWriteFile _ _ _ => false
  end.

(** The certificate chain an encoder call was given. *)
Definition event_chain (ev : Event) : option (list (option Certificate)) :=
  match ev with
  | EvEncode _ _ chain _ | EvEncodeTrustStore chain _ => Some chain
  | EvWriteFile _ _ _ => None
  end.

Definition with_entitycert (p12 : pkcs12File) (cert : option Certificate) : pkcs12File :=
  {| cacerts := cacerts p12;
     intermediatecerts := intermediatecerts p12;
     privkey := privkey p12;
     entitycert := cert |}.

(** [pem.Decode] returns a shorter rest whenever it returns a block. *)
Definition decode_consumes (E : Env) : Prop :=
  forall (b : bytes) (block : Block) (rest : bytes),
    pem_Decode E b = (Some block, rest) -> length rest < length b.

(** Two walk states that hold the same candidate files. *)
Definition same_files (s s' : Collected) : Prop := certfiles s = certfiles s'.

(** Induction on a tree, with the property available for every entry of
    a directory. *)
Definition node_ind_entries (P : node -> Prop)
    (HFile : P File)
    (HDir : forall entries, Forall (fun entry => P (snd entry)) entries -> P (Dir entries))
  : forall n, P n :=
  fix go (n : node) : P n :=
    match n with
    | File => HFile
    | Dir entries =>
        HDir entries
          ((fix each (es : list (string * node)) : Forall (fun entry => P (snd entry)) es :=
              match es with
              | [] => List.Forall_nil _
              | (name, child) :: rest =>
                  @List.Forall_cons _ (fun entry => P (snd entry)) (name, child) rest
                    (go child) (each rest)
              end) entries)
    end.

(** The three roles, as [addCertificate] tells them apart; a nil
    certificate has none. *)
Definition is_root (cert : option Certificate) : bool :=
  match cert with
  | Some c => IsCA c && String.eqb (Name_String (Issuer c)) (Name_String (Subject c))
  | None => false
  end.

Definition is_intermediate (cert : option Certificate) : bool :=
  match cert with
  | Some c => IsCA c && negb (String.eqb (Name_String (Issuer c)) (Name_String (Subject c)))
  | None => false
  end.

Definition is_end_entity (cert : option Certificate) : bool :=
  match cert with
  | Some c => negb (IsCA c)
  | None => false
  end.

(** Every certificate sits in the field of its role. *)
Definition well_classified (p12 : pkcs12File) : Prop :=
  Forall (fun cert => is_root cert = true) (cacerts p12)
  /\ Forall (fun cert => is_intermediate cert = true) (intermediatecerts p12)
  /\ (entitycert p12 = None \/ is_end_entity (entitycert p12) = true).

(** The aggregate with the authorities of [certs] appended by role and
    the end-entity slot set to [slot]. *)
Definition with_authorities (p12 : pkcs12File) (certs : list (option Certificate))
    (slot : option Certificate) : pkcs12File :=
  {| cacerts := (cacerts p12 ++ List.filter is_root certs)%list;
     intermediatecerts := (intermediatecerts p12 ++ List.filter is_intermediate certs)%list;
     privkey := privkey p12;
     entitycert := slot |}.

(** The error [main] panics with when [addCertificate] fails on a
    certificate of the file [path]. *)
Definition duplicate_end_entity_in (path : string) : panic_value :=
  PanicError (errors_New
    ("failed to parse a certificate in " +:+ path +:+ ": " +:+ Error DuplicateEndEntity)).

(** What the encoder answers to [writeFile] on [p12]: the answer of
    [Encode] when the key slot is occupied, of [EncodeTrustStore]
    otherwise. *)
Definition encoder_answer (E : Env) (p12 : pkcs12File) (storepass : string)
  : bytes * option error :=
  let chain := (cacerts p12 ++ intermediatecerts p12)%list in
  match privkey p12 with
  | Some _ => encode_answer E (privkey p12) (entitycert p12) chain storepass
  | None => encode_trust_answer E chain storepass
  end.

Definition is_write (ev : Event) : bool :=
  match ev with
  | EvWriteFile _ _ _ => true
  | _ => false
  end.

(** The extension test of the walk callback, read positively. *)
Definition allowed_extension (path : string) : bool :=
  String.eqb (filepath_Ext path) ".crt" || String.eqb (filepath_Ext path) ".key"
  || String.eqb (filepath_Ext path) ".pem".

(** The paths of the files of a tree, at every depth, in the order
    [filepath.Walk] meets them. *)
Fixpoint tree_files (path : string) (n : node) : list string :=
  match n with
  | File => [path]
  | Dir entries =>
      (fix each (es : list (string * node)) : list string :=
         match es with
         | [] => []
         | (name, child) :: rest =>
             (tree_files (filepath_Join path name) child ++ each rest)%list
         end) entries
  end.

(** The directory [main] walks for the argument [dir0]: its absolute
    form when [filepath.Abs] gives one. *)
Definition walked_dir (E : Env) (dir0 : string) : string :=
  match filepath_Abs E dir0 with
  | (tmppath, None) => tmppath
  | (_, Some _) => dir0
  end.


(** The blocks [pem.Decode] yields from [b], in file order, found within
    [fuel] calls. *)
Fixpoint decode_all (E : Env) (fuel : nat) (b : bytes) : option (list Block) :=
  match fuel with
  | O => None
  | S fuel' =>
      match pem_Decode E b with
      | (None, _) => Some []
      | (Some block, rest) =>
          match decode_all E fuel' rest with
          | Some blocks => Some (block :: blocks)
          | None => None
          end
      end
  end.

Definition is_certificate_block (block : Block) : bool :=
  String.eqb (Type_ block) "CERTIFICATE".

(** The bytes of the "CERTIFICATE" blocks, joined in file order. *)
Definition certificate_bytes (blocks : list Block) : bytes :=
  List.concat (List.map Bytes (List.filter is_certificate_block blocks)).

(** A "PRIVATE KEY" block whose PKCS#8 content is not an RSA key. *)
Definition rejected_pkcs8 (E : Env) (block : Block) : bool :=
  String.eqb (Type_ block) "PRIVATE KEY"
  && match fst (x509_ParsePKCS8PrivateKey E (Bytes block)) with
     | AnyRSA _ => false
     | _ => true
     end.

Definition private_key_parse_failure (path : string) : panic_value :=
  PanicError (errors_New ("failed to parse private key from " +:+ path)).

(** The password [main] passes on. *)
Definition effective_password (f : Flags) : string :=
  if String.eqb (flag_password f) "" then pkcs12_DefaultPassword else flag_password f.

(** What [main] may do outside: never [Encode]; [EncodeTrustStore] with
    the effective password; [os.WriteFile] on the output path with mode
    0644. *)
Definition main_may_call (f : Flags) (ev : Event) : Prop :=
  match ev with
  | EvEncode _ _ _ _ => False
  | EvEncodeTrustStore _ password => password = effective_password f
  | EvWriteFile name _ perm => name = flag_out f /\ perm = 420%N
  end.

(** ** Sample data *)

Module Sample.

Definition rootA : Certificate :=
  {| Raw := [Byte.x01]; IsCA := true;
     Issuer := mkName "CN=Root A"; Subject := mkName "CN=Root A" |}.

Definition interB : Certificate :=
  {| Raw := [Byte.x02]; IsCA := true;
     Issuer := mkName "CN=Root A"; Subject := mkName "CN=Issuing B" |}.

Definition leafD : Certificate :=
  {| Raw := [Byte.x03]; IsCA := false;
     Issuer := mkName "CN=Issuing B"; Subject := mkName "CN=host.example" |}.

Definition leafE : Certificate :=
  {| Raw := [Byte.x04]; IsCA := false;
     Issuer := mkName "CN=Issuing B"; Subject := mkName "CN=other.example" |}.

Definition keyK : PrivateKey := {| key_N := 3233; key_E := 17; key_D := 2753 |}.
Definition keyL : PrivateKey := {| key_N := 3127; key_E := 3; key_D := 2011 |}.

(** A stand-in for PEM: one tag byte, one body byte, then the rest. *)
Definition decode (b : bytes) : option Block * bytes :=
  match b with
  | tag :: body :: rest =>
      let ty := if Byte.eqb tag Byte.x01 then "RSA PRIVATE KEY"
                else if Byte.eqb tag Byte.x02 then "PRIVATE KEY"
                else if Byte.eqb tag Byte.x03 then "CERTIFICATE"
                else "OTHER" in
      (Some {| Type_ := ty; Bytes := [body] |}, rest)
  | _ => (None, b)
  end.

(** A key body [x10] parses to [keyK], [x11] to [keyL]; any other body
    is malformed. *)
Definition parse_key (b : bytes) : option PrivateKey * option error :=
  match b with
  | [k] => if Byte.eqb k Byte.x10 then (Some keyK, None)
           else if Byte.eqb k Byte.x11 then (Some keyL, None)
           else (None, Some (errors_New "x509: failed to parse private key"))
  | _ => (None, Some (errors_New "x509: failed to parse private key"))
  end.

Definition parse_cert (k : Byte.byte) : option Certificate :=
  if Byte.eqb k Byte.x01 then Some rootA
  else if Byte.eqb k Byte.x02 then Some interB
  else if Byte.eqb k Byte.x03 then Some leafD
  else if Byte.eqb k Byte.x04 then Some leafE
  else None.

Fixpoint parse_certs (b : bytes) : list (option Certificate) * option error :=
  match b with
  | [] => ([], None)
  | k :: rest =>
      match parse_cert k, parse_certs rest with
      | Some c, (cs, None) => (Some c :: cs, None)
      | _, _ => ([], Some (errors_New "x509: malformed certificate"))
      end
  end.

(** [/certs] holds [a.crt], [notes.txt] and the directory [sub] with
    [deep.crt]; [/keys] holds [bad.key], whose only block is a
    malformed "RSA PRIVATE KEY", and [two.key] with two good ones. *)
Definition tree (path : string) : node * option error :=
  if String.eqb path "/certs" then
    (Dir [("a.crt", File); ("notes.txt", File); ("sub", Dir [("deep.crt", File)])], None)
  else if String.eqb path "/keys" then
    (Dir [("bad.key", File); ("two.key", File)], None)
  else (File, Some (errors_New ("lstat " +:+ path +:+ ": no such file or directory"))).

Definition read (path : string) : bytes * option error :=
  if String.eqb path "/certs/a.crt" then ([Byte.x03; Byte.x01], None)
  else if String.eqb path "/certs/sub/deep.crt" then ([Byte.x03; Byte.x02], None)
  else if String.eqb path "/keys/bad.key" then ([Byte.x01; Byte.xff], None)
  else if String.eqb path "/keys/two.key"
       then ([Byte.x01; Byte.x10; Byte.x01; Byte.x11], None)
  else ([], Some (errors_New ("open " +:+ path +:+ ": no such file or directory"))).

Definition env : Env :=
  {| filepath_Abs := fun p => (p, None);
     os_Lstat := tree;
     os_ReadFile := read;
     pem_Decode := decode;
     x509_ParsePKCS8PrivateKey := fun b =>
       match parse_key b with
       | (Some k, None) => (AnyRSA (Some k), None)
       | (_, e) => (AnyNil, e)
       end;
     x509_ParsePKCS1PrivateKey := parse_key;
     x509_ParseCertificates := parse_certs;
     encode_answer := fun _ _ _ _ => ([Byte.x30], None);
     encode_trust_answer := fun _ _ => ([Byte.x31], None);
     write_answer := fun _ => None |}.

Definition flags (dirs : list string) (recursive : bool) : Flags :=
  {| flag_out := "/out/store.p12"; flag_password := "";
     flag_dir := dirs; flag_file := []; flag_recursive := recursive |}.

End Sample.

(** The sample environment with an encoder that rejects every input. *)
Module Faulty.

Definition env : Env :=
  {| filepath_Abs := filepath_Abs Sample.env;
     os_Lstat := os_Lstat Sample.env;
     os_ReadFile := os_ReadFile Sample.env;
     pem_Decode := pem_Decode Sample.env;
     x509_ParsePKCS8PrivateKey := x509_ParsePKCS8PrivateKey Sample.env;
     x509_ParsePKCS1PrivateKey := x509_ParsePKCS1PrivateKey Sample.env;
     x509_ParseCertificates := x509_ParseCertificates Sample.env;
     encode_answer := fun _ _ _ _ => ([], Some (errors_New "pkcs12: encoding failed"));
     encode_trust_answer := fun _ _ => ([], Some (errors_New "pkcs12: encoding failed"));
     write_answer := write_answer Sample.env |}.

End Faulty.

(** ** Properties of the classifier *)

Section Classifier.

(** [addKey] returns its receiver as it found it. *)
Lemma addKey_receiver (p12 : pkcs12File) (key : option PrivateKey) : fst (addKey p12 key) = p12.
Proof. unfold addKey. destruct key, (privkey p12); reflexivity. Qed.

(** The guard of [addKey] on an aggregate whose slot is occupied. *)
Lemma addKey_occupied (p12 : pkcs12File) (k0 k : PrivateKey) :
  privkey p12 = Some k0 -> addKey p12 (Some k) = (p12, Some DuplicateKey).
Proof. intros H. unfold addKey. rewrite H. reflexivity. Qed.

(** [addCertificate] assigns the other three fields only. *)
Lemma addCertificate_privkey (p12 : pkcs12File) (cert : option Certificate) :
  privkey (fst (addCertificate p12 cert)) = privkey p12.
Proof.
  unfold addCertificate.
  destruct cert as [c|]; [|reflexivity].
  destruct (IsCA c).
  - destruct (String.eqb _ _); reflexivity.
  - destruct (entitycert p12); reflexivity.
Qed.

Lemma after_call_privkey (p12 : pkcs12File) (cl : call) : privkey (after_call p12 cl) = privkey p12.
Proof.
  destruct cl as [key|cert]; simpl.
  - now rewrite addKey_receiver.
  - apply addCertificate_privkey.
Qed.

Lemma after_calls_privkey (cs : list call) (p12 : pkcs12File) :
  privkey (after_calls cs p12) = privkey p12.
Proof.
  revert p12. induction cs as [|cl cs IH]; intros p12; simpl.
  - reflexivity.
  - unfold after_calls in *. simpl. rewrite IH. apply after_call_privkey.
Qed.

End Classifier.

(** ** Properties of the assembler *)

Section Assembler.

Variable E : Env.
Implicit Types (w : World).

Lemma calls_since_refl w : calls_since w w = [].
Proof. unfold calls_since. apply drop_all. Qed.

(** [os.WriteFile] adds one call, and it is not an encoder call. *)
Lemma os_WriteFile_calls name data perm w :
  calls (fst (os_WriteFile E name data perm w))
  = (calls w ++ [EvWriteFile name data perm])%list.
Proof. unfold os_WriteFile. destruct (write_answer E name); reflexivity. Qed.

(** The calls of [writeFile], case by case on the two slots. *)
Lemma writeFile_calls (p12 : pkcs12File) path storepass perm w :
  let chain := (cacerts p12 ++ intermediatecerts p12)%list in
  calls_since w (fst (writeFile E p12 path storepass perm w)) =
    match privkey p12, entitycert p12 with
    | Some _, None => []
    | Some _, Some _ =>
        match encode_answer E (privkey p12) (entitycert p12) chain storepass with
        | (_, Some _) => [EvEncode (privkey p12) (entitycert p12) chain storepass]
        | (payload, None) =>
            [EvEncode (privkey p12) (entitycert p12) chain storepass;
             EvWriteFile path payload perm]
        end
    | None, _ =>
        match encode_trust_answer E chain storepass with
        | (_, Some _) => [EvEncodeTrustStore chain storepass]
        | (payload, None) =>
            [EvEncodeTrustStore chain storepass; EvWriteFile path payload perm]
        end
    end.
Proof.
  intros chain. unfold writeFile, calls_since. fold chain.
  destruct (privkey p12) as [k|] eqn:Hk.
  - destruct (entitycert p12) as [e|] eqn:He.
    + unfold pkcs12_Encode.
      destruct (encode_answer E (Some k) (Some e) chain storepass) as [payload [err|]].
      * simpl. apply drop_app_length.
      * rewrite os_WriteFile_calls. simpl. rewrite <- app_assoc. apply drop_app_length.
    + simpl. apply drop_all.
  - unfold pkcs12_EncodeTrustStore.
    destruct (encode_trust_answer E chain storepass) as [payload [err|]].
    + simpl. apply drop_app_length.
    + rewrite os_WriteFile_calls. simpl. rewrite <- app_assoc. apply drop_app_length.
Qed.

End Assembler.

(** ** The classifier, claim by claim *)

(** C1 (the code departs from the claim).  The claim: on an aggregate
    whose private-key slot is empty, classifying a non-nil key occupies
    the slot with that key.  The code: [addKey] returns a nil error and
    the aggregate it was given, so the slot is still empty and does not
    hold the key. *)
Theorem addKey_empty_slot_stays_empty (p12 : pkcs12File) (k : PrivateKey) :
  privkey p12 = None ->
  addKey p12 (Some k) = (p12, None)
  /\ privkey (fst (addKey p12 (Some k))) = None
  /\ privkey (fst (addKey p12 (Some k))) <> Some k.
Proof.
  intros Hempty.
  assert (Hrun : addKey p12 (Some k) = (p12, None)).
  { unfold addKey. now rewrite Hempty. }
  rewrite Hrun. simpl. rewrite Hempty. repeat split; congruence.
Qed.

Lemma addKey_empty_slot_stays_empty_witness :
  privkey empty_p12 = None
  /\ addKey empty_p12 (Some Sample.keyK) = (empty_p12, None)
  /\ privkey (fst (addKey empty_p12 (Some Sample.keyK))) = None
  /\ privkey (fst (addKey empty_p12 (Some Sample.keyK))) <> Some Sample.keyK.
Proof.
  split; [reflexivity|].
  apply (addKey_empty_slot_stays_empty empty_p12 Sample.keyK). reflexivity.
Defined.

(** C2.  From the empty aggregate, after any sequence of [addKey] and
    [addCertificate] calls the [privkey] field is nil, and [writeFile] on
    that aggregate makes exactly one encoder call, the one to
    [EncodeTrustStore] with the root-then-intermediate chain; it makes no
    call to [Encode]. *)
Theorem reachable_privkey_nil_trust_store
    (cs : list call) (E : Env) (path storepass : string) (perm : FileMode) (w : World) :
  let p12 := after_calls cs empty_p12 in
  privkey p12 = None
  /\ List.filter is_encode (calls_since w (fst (writeFile E p12 path storepass perm w)))
     = [EvEncodeTrustStore (cacerts p12 ++ intermediatecerts p12) storepass].
Proof.
  intros p12.
  assert (Hnil : privkey p12 = None) by apply after_calls_privkey.
  split; [exact Hnil|].
  rewrite writeFile_calls, Hnil.
  destruct (encode_trust_answer E _ storepass) as [payload [err|]]; reflexivity.
Qed.

(** C3 (the code departs from the claim).  The claim: once a private key
    has been classified, classifying a second one fails with
    [DuplicateKey].  The code: after any sequence of calls from the empty
    aggregate, whatever keys it classified, [addKey] on a non-nil key
    returns a nil error. *)
Theorem addKey_second_key_no_error (cs : list call) (k : PrivateKey) :
  snd (addKey (after_calls cs empty_p12) (Some k)) = None
  /\ snd (addKey (fst (addKey empty_p12 (Some Sample.keyK))) (Some Sample.keyL))
     <> Some DuplicateKey.
Proof.
  split.
  - unfold addKey. now rewrite after_calls_privkey.
  - discriminate.
Qed.

(** C4.  A non-nil certificate that is an authority with equal issuer and
    subject text is appended to the roots; an authority with different
    issuer and subject text is appended to the intermediates; a
    non-authority, when the end-entity slot is empty, takes that slot.
    The call returns a nil error and the other fields keep their
    values. *)
Theorem addCertificate_classifies (p12 : pkcs12File) (c : Certificate) :
  (IsCA c = true -> Name_String (Issuer c) = Name_String (Subject c) ->
   addCertificate p12 (Some c)
   = ({| cacerts := cacerts p12 ++ [Some c];
         intermediatecerts := intermediatecerts p12;
         privkey := privkey p12;
         entitycert := entitycert p12 |}, None))
  /\ (IsCA c = true -> Name_String (Issuer c) <> Name_String (Subject c) ->
      addCertificate p12 (Some c)
      = ({| cacerts := cacerts p12;
            intermediatecerts := intermediatecerts p12 ++ [Some c];
            privkey := privkey p12;
            entitycert := entitycert p12 |}, None))
  /\ (IsCA c = false -> entitycert p12 = None ->
      addCertificate p12 (Some c)
      = ({| cacerts := cacerts p12;
            intermediatecerts := intermediatecerts p12;
            privkey := privkey p12;
            entitycert := Some c |}, None)).
Proof.
  unfold addCertificate. split; [|split].
  - intros HCA Hself. rewrite HCA.
    apply String.eqb_eq in Hself. now rewrite Hself.
  - intros HCA Hother. rewrite HCA.
    apply String.eqb_neq in Hother. now rewrite Hother.
  - intros Hleaf Hslot. now rewrite Hleaf, Hslot.
Qed.

Lemma addCertificate_classifies_witness :
  cacerts (fst (addCertificate empty_p12 (Some Sample.rootA))) = [Some Sample.rootA]
  /\ intermediatecerts (fst (addCertificate empty_p12 (Some Sample.interB)))
     = [Some Sample.interB]
  /\ entitycert (fst (addCertificate empty_p12 (Some Sample.leafD))) = Some Sample.leafD.
Proof.
  split; [|split].
  - rewrite (proj1 (addCertificate_classifies empty_p12 Sample.rootA));
      reflexivity.
  - rewrite (proj1 (proj2 (addCertificate_classifies empty_p12 Sample.interB)));
      [reflexivity | reflexivity | simpl; discriminate].
  - rewrite (proj2 (proj2 (addCertificate_classifies empty_p12 Sample.leafD)));
      reflexivity.
Defined.

(** C5.  On an aggregate whose end-entity slot is occupied, classifying a
    non-nil certificate that is not an authority returns
    [DuplicateEndEntity] and leaves every field of the aggregate as it
    was. *)
Theorem addCertificate_second_end_entity (p12 : pkcs12File) (e c : Certificate) :
  entitycert p12 = Some e -> IsCA c = false ->
  addCertificate p12 (Some c) = (p12, Some DuplicateEndEntity).
Proof.
  intros Hslot Hleaf. unfold addCertificate. now rewrite Hleaf, Hslot.
Qed.

Lemma addCertificate_second_end_entity_witness :
  let p12 := fst (addCertificate empty_p12 (Some Sample.leafD)) in
  addCertificate p12 (Some Sample.leafE) = (p12, Some DuplicateEndEntity)
  /\ entitycert p12 = Some Sample.leafD.
Proof.
  intros p12. split; [|reflexivity].
  apply (addCertificate_second_end_entity p12 Sample.leafD Sample.leafE); reflexivity.
Defined.

(** ** The assembler, claim by claim *)

(** C6.  On an aggregate with the private-key slot occupied and the
    end-entity slot empty, [writeFile] returns [MissingEndEntityCert] and
    the world it was given: nothing is written and no outside call is
    made. *)
Theorem writeFile_key_without_end_entity
    (E : Env) (p12 : pkcs12File) (k : PrivateKey)
    (path storepass : string) (perm : FileMode) (w : World) :
  privkey p12 = Some k -> entitycert p12 = None ->
  writeFile E p12 path storepass perm w = (w, Some MissingEndEntityCert)
  /\ written (fst (writeFile E p12 path storepass perm w)) = written w
  /\ calls_since w (fst (writeFile E p12 path storepass perm w)) = [].
Proof.
  intros Hkey Hslot.
  assert (Hrun : writeFile E p12 path storepass perm w = (w, Some MissingEndEntityCert)).
  { unfold writeFile. now rewrite Hkey, Hslot. }
  rewrite Hrun. simpl. split; [reflexivity|]. split; [reflexivity|].
  apply calls_since_refl.
Qed.

Lemma writeFile_key_without_end_entity_witness :
  let p12 := {| cacerts := [Some Sample.rootA]; intermediatecerts := [];
                privkey := Some Sample.keyK; entitycert := None |} in
  writeFile Sample.env p12 "/out/store.p12" "changeit" 420%N empty_world
  = (empty_world, Some MissingEndEntityCert).
Proof.
  intros p12.
  apply (writeFile_key_without_end_entity Sample.env p12 Sample.keyK
           "/out/store.p12" "changeit" 420%N empty_world); reflexivity.
Defined.

(** C9.  Every chain that [writeFile] passes to an encoder is the root
    sequence followed by the intermediate sequence, each in insertion
    order: the chains of the calls it makes are that one chain, or none
    when it stops at the missing end-entity certificate. *)
Theorem writeFile_chain_roots_then_intermediates
    (E : Env) (p12 : pkcs12File) (path storepass : string) (perm : FileMode) (w : World) :
  omap event_chain (calls_since w (fst (writeFile E p12 path storepass perm w)))
  = match privkey p12, entitycert p12 with
    | Some _, None => []
    | _, _ => [(cacerts p12 ++ intermediatecerts p12)%list]
    end.
Proof.
  rewrite writeFile_calls.
  destruct (privkey p12) as [k|], (entitycert p12) as [e|]; try reflexivity.
  - destruct (encode_answer E _ _ _ storepass) as [payload [err|]]; reflexivity.
  - destruct (encode_trust_answer E _ storepass) as [payload [err|]]; reflexivity.
  - destruct (encode_trust_answer E _ storepass) as [payload [err|]]; reflexivity.
Qed.

(** [writeFile] reads the end-entity slot only when a key is present. *)
Lemma writeFile_without_key_ignores_entitycert
    (E : Env) (p12 : pkcs12File) (cert : option Certificate)
    (path storepass : string) (perm : FileMode) (w : World) :
  privkey p12 = None ->
  writeFile E (with_entitycert p12 cert) path storepass perm w
  = writeFile E p12 path storepass perm w.
Proof.
  intros Hnil. unfold writeFile, with_entitycert. simpl. now rewrite Hnil.
Qed.

(** C10.  On an aggregate with the private-key slot empty and the
    end-entity slot occupied, the one encoder call of [writeFile] is
    [EncodeTrustStore] on the root-then-intermediate chain and the
    password, and [writeFile] does what it does on the same aggregate
    with the end-entity slot emptied: the end-entity certificate is not
    part of what is encoded. *)
Theorem writeFile_trust_store_omits_end_entity
    (E : Env) (p12 : pkcs12File) (e : Certificate)
    (path storepass : string) (perm : FileMode) (w : World) :
  privkey p12 = None -> entitycert p12 = Some e ->
  List.filter is_encode (calls_since w (fst (writeFile E p12 path storepass perm w)))
  = [EvEncodeTrustStore (cacerts p12 ++ intermediatecerts p12) storepass]
  /\ writeFile E p12 path storepass perm w
     = writeFile E (with_entitycert p12 None) path storepass perm w.
Proof.
  intros Hnil Hslot. split.
  - rewrite writeFile_calls, Hnil.
    destruct (encode_trust_answer E _ storepass) as [payload [err|]]; reflexivity.
  - symmetry. now apply writeFile_without_key_ignores_entitycert.
Qed.

Lemma writeFile_trust_store_omits_end_entity_witness :
  let p12 := {| cacerts := [Some Sample.rootA]; intermediatecerts := [Some Sample.interB];
                privkey := None; entitycert := Some Sample.leafD |} in
  List.filter is_encode
    (calls_since empty_world
       (fst (writeFile Sample.env p12 "/out/store.p12" "changeit" 420%N empty_world)))
  = [EvEncodeTrustStore [Some Sample.rootA; Some Sample.interB] "changeit"].
Proof.
  intros p12.
  apply (writeFile_trust_store_omits_end_entity Sample.env p12 Sample.leafD
           "/out/store.p12" "changeit" 420%N empty_world); reflexivity.
Defined.

(** ** The decoding loop *)

Section Decoding.

Variable E : Env.

(** With such a decoder the bound [processFile] gives the loop is
    enough: the loop ends with a value or a panic. *)
Lemma decodeLoop_enough_fuel (Hdec : decode_consumes E) (path : string)
    (err : option error) (fuel : nat) :
  forall (b : bytes) (p12 : pkcs12File) (certsBytes : bytes),
    length b < fuel -> decodeLoop E path err fuel b p12 certsBytes <> OutOfFuel.
Proof.
  induction fuel as [|fuel IH]; intros b p12 certsBytes Hlen; [lia|].
  simpl.
  destruct (pem_Decode E b) as [[block|] rest] eqn:Hd; [|discriminate].
  apply Hdec in Hd.
  assert (Hrest : length rest < fuel) by lia.
  destruct (String.eqb (Type_ block) "PRIVATE KEY").
  { destruct (x509_ParsePKCS8PrivateKey E (Bytes block)) as [[|key|] perr];
      try discriminate.
    unfold check_addKey. destruct (addKey p12 key) as [p12' [e|]]; simpl.
    - discriminate.
    - now apply IH. }
  destruct (String.eqb (Type_ block) "RSA PRIVATE KEY").
  { destruct (x509_ParsePKCS1PrivateKey E (Bytes block)) as [key [e1|]].
    - simpl. destruct err; simpl; [discriminate | now apply IH].
    - unfold check_addKey. destruct (addKey p12 key) as [p12' [e|]]; simpl.
      + discriminate.
      + destruct err; simpl; [discriminate | now apply IH]. }
  destruct (String.eqb (Type_ block) "CERTIFICATE"); now apply IH.
Qed.

(** One turn of the loop on an "RSA PRIVATE KEY" block that does not
    parse: with the [err] of [os.ReadFile] nil, as it is whenever the
    loop is reached, the loop goes on to the rest of the file with the
    aggregate and the collected certificate bytes as they were. *)
Lemma decodeLoop_rsa_parse_error (path : string) (fuel : nat) (b rest : bytes)
    (block : Block) (key : option PrivateKey) (e : error)
    (p12 : pkcs12File) (certsBytes : bytes) :
  pem_Decode E b = (Some block, rest) ->
  Type_ block = "RSA PRIVATE KEY" ->
  x509_ParsePKCS1PrivateKey E (Bytes block) = (key, Some e) ->
  decodeLoop E path None (S fuel) b p12 certsBytes
  = decodeLoop E path None fuel rest p12 certsBytes.
Proof.
  intros Hd Hty Hparse. simpl. rewrite Hd, Hty, Hparse. reflexivity.
Qed.

End Decoding.

(** C7 (the code departs from the claim).  The claim: a file with a
    malformed "RSA PRIVATE KEY" block ends the run with a parse error.
    The code: [check(err)] after the [if] reads the [err] of
    [os.ReadFile], which is nil there, not the [err] of
    [x509.ParsePKCS1PrivateKey], whose scope is the [if] statement.  So a
    readable file whose one block is an "RSA PRIVATE KEY" that does not
    parse is processed without a panic and leaves the aggregate as it
    was. *)
Theorem processFile_malformed_rsa_key_accepted
    (E : Env) (path : string) (b rest rest' : bytes) (block : Block)
    (key : option PrivateKey) (e : error) (p12 : pkcs12File) :
  os_ReadFile E path = (b, None) ->
  pem_Decode E b = (Some block, rest) ->
  length rest < length b ->
  Type_ block = "RSA PRIVATE KEY" ->
  x509_ParsePKCS1PrivateKey E (Bytes block) = (key, Some e) ->
  pem_Decode E rest = (None, rest') ->
  x509_ParseCertificates E [] = ([], None) ->
  processFile E path p12 = Ok p12.
Proof.
  intros Hread Hd Hlen Hty Hparse Hend Hcerts.
  unfold processFile. rewrite Hread.
  rewrite (decodeLoop_rsa_parse_error E path (length b) b rest block key e p12 []
             Hd Hty Hparse).
  destruct (length b) as [|n] eqn:Hn; [lia|].
  simpl. rewrite Hend. simpl. rewrite Hcerts. reflexivity.
Qed.

Lemma processFile_malformed_rsa_key_accepted_witness :
  processFile Sample.env "/keys/bad.key" empty_p12 = Ok empty_p12.
Proof.
  apply (processFile_malformed_rsa_key_accepted Sample.env "/keys/bad.key"
           [Byte.x01; Byte.xff] [] []
           {| Type_ := "RSA PRIVATE KEY"; Bytes := [Byte.xff] |}
           None (errors_New "x509: failed to parse private key") empty_p12);
    try reflexivity.
  simpl. lia.
Defined.

(** The sibling case: a "PRIVATE KEY" block that does not parse to an RSA
    key makes the loop panic with an error naming the file. *)
Lemma decodeLoop_pkcs8_parse_error (E : Env) (path : string) (err perr : option error)
    (fuel : nat) (b rest : bytes) (block : Block) (p12 : pkcs12File) (certsBytes : bytes) :
  pem_Decode E b = (Some block, rest) ->
  Type_ block = "PRIVATE KEY" ->
  x509_ParsePKCS8PrivateKey E (Bytes block) = (AnyNil, perr) ->
  decodeLoop E path err (S fuel) b p12 certsBytes
  = Panic (PanicError (errors_New ("failed to parse private key from " +:+ path))).
Proof.
  intros Hd Hty Hparse. simpl. rewrite Hd, Hty, Hparse. reflexivity.
Qed.

(** The whole program on a directory with a malformed "RSA PRIVATE KEY"
    file and a file with two good keys: it ends without a panic, having
    written a trust store with an empty chain. *)
Example main_on_malformed_rsa_key :
  let '(w, r) := main Sample.env (Sample.flags ["/keys"] false) empty_world in
  r = Ok tt
  /\ calls w = [EvEncodeTrustStore [] "changeit";
                EvWriteFile "/out/store.p12" [Byte.x31] 420%N].
Proof. vm_compute. split; reflexivity. Qed.

(** ** The directory walk *)

(** [filepath.Ext] on the shapes of path the walk meets. *)
Example filepath_Ext_samples :
  filepath_Ext "/certs/a.crt" = ".crt"
  /\ filepath_Ext "/certs/bundle.tar.pem" = ".pem"
  /\ filepath_Ext "/certs.d/README" = ""
  /\ filepath_Ext "/certs/.key" = ".key".
Proof. repeat split. Qed.

Section Walk.

Variable dir : string.

(** The callback appends the same files and returns the same error
    whatever [recurse] is. *)
Lemma walkFn_recurse_irrelevant (path : string) (v : visit) (s s' : Collected) :
  same_files s s' ->
  same_files (fst (walkFn false dir path v s)) (fst (walkFn true dir path v s'))
  /\ snd (walkFn false dir path v s) = snd (walkFn true dir path v s').
Proof.
  unfold same_files, walkFn. intros Hs.
  destruct v as [info|err]; [|now split].
  destruct (IsDir info).
  - destruct (negb (String.eqb path dir)); now split.
  - destruct (negb _ && negb _ && negb _); simpl; [now split|].
    split; [now rewrite Hs | reflexivity].
Qed.

Lemma walk_recurse_irrelevant (n : node) :
  forall (path : string) (s s' : Collected),
    same_files s s' ->
    same_files (fst (walk (walkFn false dir) path n s))
               (fst (walk (walkFn true dir) path n s'))
    /\ snd (walk (walkFn false dir) path n s) = snd (walk (walkFn true dir) path n s').
Proof.
  induction n as [|entries IH] using node_ind_entries; intros path s s' Hs.
  - exact (walkFn_recurse_irrelevant path (Visit {| IsDir := false |}) s s' Hs).
  - cbn [walk].
    pose proof (walkFn_recurse_irrelevant path (Visit {| IsDir := true |}) s s' Hs)
      as [Hfst Hsnd].
    destruct (walkFn false dir path (Visit {| IsDir := true |}) s) as [s1 e1].
    destruct (walkFn true dir path (Visit {| IsDir := true |}) s') as [s1' e1'].
    simpl in Hfst, Hsnd. subst e1'.
    destruct e1 as [e|]; [now split|].
    clear Hs s s'. revert s1 s1' Hfst.
    induction IH as [|[name child] rest Hchild _ IHrest]; intros s1 s1' Hs.
    + now split.
    + simpl in Hchild.
      pose proof (Hchild (filepath_Join path name) s1 s1' Hs) as [Hfst Hsnd].
      destruct (walk (walkFn false dir) (filepath_Join path name) child s1) as [s2 e2].
      destruct (walk (walkFn true dir) (filepath_Join path name) child s1') as [s2' e2'].
      simpl in Hfst, Hsnd. subst e2'.
      destruct e2 as [e|]; [|now apply IHrest].
      destruct (negb (node_IsDir child) || negb (error_eqb e SkipDir));
        [now split | now apply IHrest].
Qed.

End Walk.

(** The candidate files that the walk of [main] collects do not depend
    on the recursion flag. *)
Lemma walkDirs_recurse_irrelevant (E : Env) (dirs : list string) :
  forall s s' : Collected,
    same_files s s' ->
    same_files (fst (walkDirs E false dirs s)) (fst (walkDirs E true dirs s'))
    /\ snd (walkDirs E false dirs s) = snd (walkDirs E true dirs s').
Proof.
  induction dirs as [|dir0 rest IH]; intros s s' Hs; [now split|].
  simpl.
  set (dir := match filepath_Abs E dir0 with
              | (tmppath, None) => tmppath
              | (_, Some _) => dir0
              end).
  assert (Hwalk :
    same_files (fst (filepath_Walk E dir (walkFn false dir) s))
               (fst (filepath_Walk E dir (walkFn true dir) s'))
    /\ snd (filepath_Walk E dir (walkFn false dir) s)
       = snd (filepath_Walk E dir (walkFn true dir) s')).
  { unfold filepath_Walk.
    destruct (os_Lstat E dir) as [n [e|]].
    - pose proof (walkFn_recurse_irrelevant dir dir (VisitErr e) s s' Hs) as [Hfst Hsnd].
      destruct (walkFn false dir dir (VisitErr e) s) as [s1 e1].
      destruct (walkFn true dir dir (VisitErr e) s') as [s1' e1'].
      simpl in Hfst, Hsnd. subst e1'.
      destruct e1 as [e1|]; [destruct (error_eqb e1 SkipDir)|]; now split.
    - pose proof (walk_recurse_irrelevant dir n dir s s' Hs) as [Hfst Hsnd].
      destruct (walk (walkFn false dir) dir n s) as [s1 e1].
      destruct (walk (walkFn true dir) dir n s') as [s1' e1'].
      simpl in Hfst, Hsnd. subst e1'.
      destruct e1 as [e1|]; [destruct (error_eqb e1 SkipDir)|]; now split. }
  destruct Hwalk as [Hfst Hsnd].
  destruct (filepath_Walk E dir (walkFn false dir) s) as [s1 e1].
  destruct (filepath_Walk E dir (walkFn true dir) s') as [s1' e1'].
  simpl in Hfst, Hsnd. subst e1'.
  destruct e1 as [e1|]; [now split | now apply IH].
Qed.

(** C8 (the code departs from the claim).  The claim: with the recursion
    flag false, a file in a subdirectory of a given directory is not a
    candidate.  The code: the callback returns nil for a subdirectory,
    so [filepath.Walk] descends into it; with the flag false the walk of
    [/certs] collects [/certs/sub/deep.crt], and the program classifies
    the certificate it holds. *)
Theorem walkDirs_nonrecursive_collects_nested_file :
  certfiles (fst (walkDirs Sample.env false ["/certs"]
                    {| certdirs := ["/certs"]; certfiles := [] |}))
  = ["/certs/a.crt"; "/certs/sub/deep.crt"]
  /\ (let '(w, r) := main Sample.env (Sample.flags ["/certs"] false) empty_world in
      r = Ok tt
      /\ calls w = [EvEncodeTrustStore [Some Sample.rootA; Some Sample.interB] "changeit";
                    EvWriteFile "/out/store.p12" [Byte.x31] 420%N]).
Proof. vm_compute. repeat split. Qed.


(** ** More on the classifier *)

Section ClassifierInvariants.

Lemma addCertificate_nil (p12 : pkcs12File) : addCertificate p12 None = (p12, None).
Proof. reflexivity. Qed.

(** One call of [addCertificate], by the role of its argument. *)
Lemma addCertificate_by_role (p12 : pkcs12File) (cert : option Certificate) :
  addCertificate p12 cert =
    if is_root cert then (with_authorities p12 [cert] (entitycert p12), None)
    else if is_intermediate cert then (with_authorities p12 [cert] (entitycert p12), None)
    else if is_end_entity cert then
      match entitycert p12 with
      | Some _ => (p12, Some DuplicateEndEntity)
      | None => (with_authorities p12 [] cert, None)
      end
    else (p12, None).
Proof.
  destruct cert as [[raw [|] issuer subject]|]; [| |reflexivity];
    unfold addCertificate, with_authorities; simpl.
  - destruct (String.eqb _ _); simpl; now rewrite ?app_nil_r.
  - destruct p12 as [ca ic pk [e|]]; simpl; now rewrite ?app_nil_r.
Qed.

Lemma with_authorities_nil (p12 : pkcs12File) :
  with_authorities p12 [] (entitycert p12) = p12.
Proof. destruct p12. unfold with_authorities. simpl. now rewrite !app_nil_r. Qed.

Lemma addCertificate_well_classified (p12 : pkcs12File) (cert : option Certificate) :
  well_classified p12 -> well_classified (fst (addCertificate p12 cert)).
Proof.
  intros (Hroots & Hinter & Hleaf).
  destruct cert as [[raw [|] issuer subject]|]; unfold addCertificate; simpl.
  - destruct (String.eqb _ _) eqn:Hself; unfold well_classified; simpl;
      (split; [|split]); try assumption.
    + apply Forall_app. split; [assumption|].
      constructor; [|constructor]. simpl. now rewrite Hself.
    + apply Forall_app. split; [assumption|].
      constructor; [|constructor]. simpl. now rewrite Hself.
  - destruct (entitycert p12) eqn:Hslot; unfold well_classified; simpl.
    + rewrite Hslot. auto.
    + split; [|split]; auto.
  - unfold well_classified. auto.
Qed.

Lemma after_calls_cons (cl : call) (cs : list call) (p12 : pkcs12File) :
  after_calls (cl :: cs) p12 = after_calls cs (after_call p12 cl).
Proof. reflexivity. Qed.

Lemma after_calls_well_classified (cs : list call) :
  forall p12 : pkcs12File, well_classified p12 -> well_classified (after_calls cs p12).
Proof.
  induction cs as [|cl cs IH]; intros p12 Hwc; [exact Hwc|].
  rewrite after_calls_cons. apply IH.
  destruct cl as [key|cert]; simpl.
  - now rewrite addKey_receiver.
  - now apply addCertificate_well_classified.
Qed.

(** What one call keeps: the two sequences grow at the end only, and an
    occupied end-entity slot keeps its certificate. *)
Lemma after_call_keeps (p12 : pkcs12File) (cl : call) :
  (exists more, cacerts (after_call p12 cl) = (cacerts p12 ++ more)%list)
  /\ (exists more, intermediatecerts (after_call p12 cl)
                   = (intermediatecerts p12 ++ more)%list)
  /\ (forall e, entitycert p12 = Some e -> entitycert (after_call p12 cl) = Some e).
Proof.
  destruct cl as [key|cert]; simpl.
  - rewrite addKey_receiver.
    split; [|split]; [exists []; now rewrite app_nil_r ..| auto].
  - rewrite addCertificate_by_role.
    destruct (is_root cert); [|destruct (is_intermediate cert);
      [|destruct (is_end_entity cert); [destruct (entitycert p12) eqn:Hslot|]]]; simpl;
      (split; [|split]); try (eexists; reflexivity);
      try (exists []; now rewrite app_nil_r); auto; try discriminate.
  intros e He. now rewrite Hslot.
Qed.

End ClassifierInvariants.

(** X1.  From the empty aggregate, after any sequence of [addKey] and
    [addCertificate] calls every element of [cacerts] is a non-nil
    authority whose issuer and subject text are equal, every element of
    [intermediatecerts] is a non-nil authority whose issuer and subject
    text differ, and [entitycert] is nil or a non-authority. *)
Theorem reachable_well_classified (cs : list call) :
  well_classified (after_calls cs empty_p12).
Proof.
  apply after_calls_well_classified.
  unfold well_classified, empty_p12. simpl.
  split; [constructor|]. split; [constructor|]. now left.
Qed.

(** X2.  No sequence of calls removes or reorders what the aggregate
    holds: the root and intermediate sequences after the calls start
    with the sequences before them. *)
Theorem after_calls_only_appends (cs : list call) (p12 : pkcs12File) :
  (exists more, cacerts (after_calls cs p12) = (cacerts p12 ++ more)%list)
  /\ (exists more, intermediatecerts (after_calls cs p12)
                   = (intermediatecerts p12 ++ more)%list).
Proof.
  revert p12. induction cs as [|cl cs IH]; intros p12.
  - split; exists []; simpl; now rewrite app_nil_r.
  - rewrite after_calls_cons.
    destruct (IH (after_call p12 cl)) as [[m1 H1] [m2 H2]].
    destruct (after_call_keeps p12 cl) as ([n1 G1] & [n2 G2] & _).
    rewrite H1, H2, G1, G2, <- !app_assoc. split; eexists; reflexivity.
Qed.

(** X3.  Once the end-entity slot holds a certificate, it holds that
    certificate after any further calls: the first end-entity
    certificate stays. *)
Theorem after_calls_first_end_entity_stays
    (cs : list call) (p12 : pkcs12File) (e : Certificate) :
  entitycert p12 = Some e -> entitycert (after_calls cs p12) = Some e.
Proof.
  revert p12. induction cs as [|cl cs IH]; intros p12 Hslot; [exact Hslot|].
  rewrite after_calls_cons. apply IH.
  now apply (after_call_keeps p12 cl).
Qed.

Lemma after_calls_first_end_entity_stays_witness :
  entitycert (after_calls [CallAddCertificate (Some Sample.leafE);
                           CallAddCertificate (Some Sample.rootA);
                           CallAddKey (Some Sample.keyK)]
                (with_entitycert empty_p12 (Some Sample.leafD)))
  = Some Sample.leafD.
Proof.
  apply (after_calls_first_end_entity_stays _ _ Sample.leafD). reflexivity.
Defined.

(** X4.  The only failure of [addCertificate]: when it returns an error,
    the error is [DuplicateEndEntity], the certificate is a non-nil
    non-authority, the end-entity slot was occupied, and the aggregate
    is unchanged. *)
Theorem addCertificate_error_only_duplicate
    (p12 : pkcs12File) (cert : option Certificate) (err : error) :
  snd (addCertificate p12 cert) = Some err ->
  err = DuplicateEndEntity
  /\ is_end_entity cert = true
  /\ entitycert p12 <> None
  /\ fst (addCertificate p12 cert) = p12.
Proof.
  rewrite addCertificate_by_role.
  destruct (is_root cert); [|destruct (is_intermediate cert);
    [|destruct (is_end_entity cert); [destruct (entitycert p12) eqn:Hslot|]]]; simpl;
    try discriminate.
  intros [= <-]. repeat split. discriminate.
Qed.

Lemma addCertificate_error_only_duplicate_witness :
  is_end_entity (Some Sample.leafE) = true
  /\ fst (addCertificate (with_entitycert empty_p12 (Some Sample.leafD))
                         (Some Sample.leafE))
     = with_entitycert empty_p12 (Some Sample.leafD).
Proof.
  pose proof (addCertificate_error_only_duplicate
                (with_entitycert empty_p12 (Some Sample.leafD))
                (Some Sample.leafE) DuplicateEndEntity eq_refl) as (_ & Hleaf & _ & Hsame).
  split; [exact Hleaf | exact Hsame].
Defined.

Lemma with_authorities_step (p12 : pkcs12File) (cert : option Certificate)
    (certs : list (option Certificate)) (slot slot' : option Certificate) :
  with_authorities (with_authorities p12 [cert] slot) certs slot'
  = with_authorities p12 (cert :: certs) slot'.
Proof.
  unfold with_authorities. simpl.
  destruct (is_root cert), (is_intermediate cert); simpl;
    now rewrite <- ?app_assoc, ?app_nil_r.
Qed.

(** X5.  The loop over the certificates of one file, in one equation.
    With at most one end-entity certificate between the slot and the
    file, the loop ends with the roots and the intermediates of the file
    appended in file order and the slot holding that certificate; with
    more, it panics with the duplicate end-entity error naming the
    file.  Nil certificates are passed over. *)
Theorem addCertificates_by_role (path : string) (certs : list (option Certificate)) :
  forall p12 : pkcs12File,
    addCertificates path certs p12 =
      match entitycert p12, List.filter is_end_entity certs with
      | slot, [] => Ok (with_authorities p12 certs slot)
      | None, [leaf] => Ok (with_authorities p12 certs leaf)
      | _, _ => Panic (duplicate_end_entity_in path)
      end.
Proof.
  induction certs as [|cert certs IH]; intros p12.
  - simpl. destruct (entitycert p12) eqn:Hslot;
      now rewrite <- Hslot, with_authorities_nil.
  - cbn [addCertificates]. rewrite addCertificate_by_role.
    destruct (is_root cert) eqn:Hr; [|destruct (is_intermediate cert) eqn:Hi;
      [|destruct (is_end_entity cert) eqn:He]].
    + assert (Hl : is_end_entity cert = false).
      { destruct cert as [[raw [|] issuer subject]|]; simpl in *; congruence. }
      rewrite IH. simpl. rewrite Hl.
      destruct (entitycert p12) eqn:Hslot;
        destruct (List.filter is_end_entity certs) as [|l [|l2 ls]];
        now rewrite ?with_authorities_step.
    + assert (Hl : is_end_entity cert = false).
      { destruct cert as [[raw [|] issuer subject]|]; simpl in *; congruence. }
      rewrite IH. simpl. rewrite Hl.
      destruct (entitycert p12) eqn:Hslot;
        destruct (List.filter is_end_entity certs) as [|l [|l2 ls]];
        now rewrite ?with_authorities_step.
    + simpl. rewrite He.
      destruct (entitycert p12) as [e|] eqn:Hslot; [reflexivity|].
      rewrite IH. simpl.
      assert (Hstep : forall slot',
                with_authorities (with_authorities p12 [] cert) certs slot'
                = with_authorities p12 (cert :: certs) slot').
      { intros slot'. unfold with_authorities. simpl. rewrite Hr, Hi.
        now rewrite !app_nil_r. }
      destruct cert as [c|]; [|discriminate].
      destruct (List.filter is_end_entity certs) as [|l ls]; [|reflexivity].
      now rewrite Hstep.
    + rewrite IH. simpl. rewrite He.
      assert (Hstep : forall slot',
                with_authorities p12 certs slot'
                = with_authorities p12 (cert :: certs) slot').
      { intros slot'. unfold with_authorities. simpl. now rewrite Hr, Hi. }
      destruct (entitycert p12) eqn:Hslot;
        destruct (List.filter is_end_entity certs) as [|l [|l2 ls]];
        now rewrite ?Hstep.
Qed.


(** ** More on the assembler *)

(** X6.  Keystore mode: with both the private-key slot and the
    end-entity slot occupied, the one encoder call of [writeFile] is
    [Encode] with that key, that certificate, the root-then-intermediate
    chain and the password. *)
Theorem writeFile_keystore_call
    (E : Env) (p12 : pkcs12File) (k : PrivateKey) (c : Certificate)
    (path storepass : string) (perm : FileMode) (w : World) :
  privkey p12 = Some k -> entitycert p12 = Some c ->
  List.filter is_encode (calls_since w (fst (writeFile E p12 path storepass perm w)))
  = [EvEncode (Some k) (Some c) (cacerts p12 ++ intermediatecerts p12) storepass].
Proof.
  intros Hkey Hslot. rewrite writeFile_calls, Hkey, Hslot.
  destruct (encode_answer E _ _ _ storepass) as [payload [err|]]; reflexivity.
Qed.

Lemma writeFile_keystore_call_witness :
  let p12 := {| cacerts := [Some Sample.rootA]; intermediatecerts := [Some Sample.interB];
                privkey := Some Sample.keyK; entitycert := Some Sample.leafD |} in
  List.filter is_encode
    (calls_since empty_world
       (fst (writeFile Sample.env p12 "/out/store.p12" "changeit" 420%N empty_world)))
  = [EvEncode (Some Sample.keyK) (Some Sample.leafD)
       [Some Sample.rootA; Some Sample.interB] "changeit"].
Proof.
  intros p12.
  apply (writeFile_keystore_call Sample.env p12 Sample.keyK Sample.leafD); reflexivity.
Defined.



(** X8.  When the encoder fails, [writeFile] returns the encoder's error,
    makes no [os.WriteFile] call and writes nothing. *)
Theorem writeFile_encoder_error_not_written
    (E : Env) (p12 : pkcs12File) (err : error)
    (path storepass : string) (perm : FileMode) (w : World) :
  (privkey p12 = None \/ entitycert p12 <> None) ->
  snd (encoder_answer E p12 storepass) = Some err ->
  snd (writeFile E p12 path storepass perm w) = Some err
  /\ List.filter is_write (calls_since w (fst (writeFile E p12 path storepass perm w))) = []
  /\ written (fst (writeFile E p12 path storepass perm w)) = written w.
Proof.
  intros Hmode. rewrite writeFile_calls.
  unfold encoder_answer, writeFile, pkcs12_Encode, pkcs12_EncodeTrustStore.
  destruct (privkey p12) as [k|] eqn:Hkey.
  - destruct (entitycert p12) as [c|] eqn:Hslot.
    + destruct (encode_answer E _ _ _ storepass) as [payload [e|]]; simpl;
        [|discriminate]. intros [= ->]. now repeat split.
    + destruct Hmode; congruence.
  - destruct (encode_trust_answer E _ storepass) as [payload [e|]]; simpl;
      [|discriminate]. intros [= ->].
    destruct (entitycert p12); now repeat split.
Qed.

Lemma writeFile_encoder_error_not_written_witness :
  snd (writeFile Faulty.env empty_p12 "/out/store.p12" "changeit" 420%N empty_world)
  = Some (errors_New "pkcs12: encoding failed")
  /\ List.filter is_write
       (calls_since empty_world
          (fst (writeFile Faulty.env empty_p12 "/out/store.p12" "changeit" 420%N
                  empty_world))) = []
  /\ written (fst (writeFile Faulty.env empty_p12 "/out/store.p12" "changeit" 420%N
                     empty_world)) = written empty_world.
Proof.
  apply (writeFile_encoder_error_not_written Faulty.env empty_p12
           (errors_New "pkcs12: encoding failed")
           "/out/store.p12" "changeit" 420%N empty_world).
  - left. reflexivity.
  - reflexivity.
Defined.


(** ** More on the directory walk *)

Section WalkCollects.

Variables (recurse : bool) (dir : string).

Lemma walkFn_file (path : string) (s : Collected) :
  walkFn recurse dir path (Visit {| IsDir := false |}) s
  = ({| certdirs := certdirs s;
        certfiles := (certfiles s ++ List.filter allowed_extension [path])%list |}, None).
Proof.
  unfold walkFn, allowed_extension. simpl.
  destruct (String.eqb (filepath_Ext path) ".crt"),
           (String.eqb (filepath_Ext path) ".key"),
           (String.eqb (filepath_Ext path) ".pem"); simpl;
    rewrite ?app_nil_r; try reflexivity; now destruct s.
Qed.

Lemma walkFn_dir (path : string) (s : Collected) :
  snd (walkFn recurse dir path (Visit {| IsDir := true |}) s) = None
  /\ certfiles (fst (walkFn recurse dir path (Visit {| IsDir := true |}) s)) = certfiles s.
Proof.
  unfold walkFn. simpl.
  destruct (negb (String.eqb path dir)), recurse; now split.
Qed.

Lemma walk_collects (n : node) :
  forall (path : string) (s : Collected),
    snd (walk (walkFn recurse dir) path n s) = None
    /\ certfiles (fst (walk (walkFn recurse dir) path n s))
       = (certfiles s ++ List.filter allowed_extension (tree_files path n))%list.
Proof.
  induction n as [|entries IH] using node_ind_entries; intros path s.
  - cbn [walk tree_files]. rewrite walkFn_file. now split.
  - cbn [walk tree_files].
    destruct (walkFn_dir path s) as [Herr Hfiles].
    destruct (walkFn recurse dir path (Visit {| IsDir := true |}) s) as [s1 e1].
    simpl in Herr, Hfiles. subst e1. rewrite <- Hfiles. clear Hfiles s.
    revert s1.
    induction IH as [|[name child] rest Hchild _ IHrest]; intros s1.
    + simpl. now rewrite app_nil_r.
    + simpl in Hchild.
      destruct (Hchild (filepath_Join path name) s1) as [Herr Hfiles].
      destruct (walk (walkFn recurse dir) (filepath_Join path name) child s1) as [s2 e2].
      simpl in Herr, Hfiles. subst e2.
      destruct (IHrest s2) as [Herr' Hfiles'].
      split; [exact Herr'|].
      rewrite Hfiles', Hfiles, List.filter_app, <- app_assoc. reflexivity.
Qed.

End WalkCollects.

(** X9.  The walk of one readable tree never fails and appends to the
    candidates exactly the files of the tree whose extension is [.crt],
    [.key] or [.pem], from every depth and in walk order, after the
    candidates already there; the recursion flag plays no part. *)
Theorem walk_appends_allowed_files_of_tree
    (recurse : bool) (dir path : string) (n : node) (s : Collected) :
  snd (walk (walkFn recurse dir) path n s) = None
  /\ certfiles (fst (walk (walkFn recurse dir) path n s))
     = (certfiles s ++ List.filter allowed_extension (tree_files path n))%list.
Proof. apply walk_collects. Qed.

Section WalkDirs.

Variables (E : Env) (recurse : bool).

(** [filepath.Walk] on a directory argument of [main], by the answer of
    [os.Lstat]. *)
Lemma filepath_Walk_collects (dir : string) (s : Collected) :
  match os_Lstat E dir with
  | (n, None) =>
      snd (filepath_Walk E dir (walkFn recurse dir) s) = None
      /\ certfiles (fst (filepath_Walk E dir (walkFn recurse dir) s))
         = (certfiles s ++ List.filter allowed_extension (tree_files dir n))%list
  | (_, Some e) =>
      filepath_Walk E dir (walkFn recurse dir) s
      = (s, if error_eqb e SkipDir then None else Some e)
  end.
Proof.
  unfold filepath_Walk.
  destruct (os_Lstat E dir) as [n [e|]].
  - simpl. now destruct (error_eqb e SkipDir).
  - destruct (walk_collects recurse dir n dir s) as [Herr Hfiles].
    destruct (walk (walkFn recurse dir) dir n s) as [s1 e1].
    simpl in Herr, Hfiles. subst e1. now split.
Qed.

(** Whatever happens, the walk only appends candidates, and each one it
    appends passed the extension test. *)
Lemma walkDirs_appends (dirs : list string) :
  forall s : Collected,
    exists more,
      certfiles (fst (walkDirs E recurse dirs s)) = (certfiles s ++ more)%list
      /\ Forall (fun path => allowed_extension path = true) more.
Proof.
  induction dirs as [|dir0 rest IH]; intros s.
  - exists []. simpl. split; [now rewrite app_nil_r | constructor].
  - cbn [walkDirs]. fold (walked_dir E dir0).
    pose proof (filepath_Walk_collects (walked_dir E dir0) s) as Hwalk.
    destruct (os_Lstat E (walked_dir E dir0)) as [n [e|]].
    + rewrite Hwalk. destruct (error_eqb e SkipDir).
      * apply IH.
      * exists []. simpl. split; [now rewrite app_nil_r | constructor].
    + destruct Hwalk as [Herr Hfiles].
      destruct (filepath_Walk E (walked_dir E dir0) (walkFn recurse (walked_dir E dir0)) s)
        as [s1 e1].
      simpl in Herr, Hfiles. subst e1.
      destruct (IH s1) as (more & Hmore & Hall).
      exists (List.filter allowed_extension (tree_files (walked_dir E dir0) n) ++ more)%list.
      split.
      * now rewrite Hmore, Hfiles, <- app_assoc.
      * apply Forall_app. split; [|exact Hall].
        apply List.Forall_forall. intros path Hin.
        now apply List.filter_In in Hin.
Qed.

End WalkDirs.




(** ** The extension test *)

Lemma string_of_list_ascii_app (l1 l2 : list ascii) :
  string_of_list_ascii (l1 ++ l2) = string_of_list_ascii l1 +:+ string_of_list_ascii l2.
Proof. induction l1 as [|c l1 IH]; simpl; [reflexivity | now rewrite IH]. Qed.

(** What the backward scan returns is empty or closes the path. *)
Lemma Ext_scan_suffix (rev_path : list ascii) :
  forall suffix : list ascii,
    Ext_scan rev_path suffix = []
    \/ exists stem, (rev rev_path ++ suffix)%list = (stem ++ Ext_scan rev_path suffix)%list.
Proof.
  induction rev_path as [|c before IH]; intros suffix; [now left|].
  simpl. destruct (Ascii.eqb c "/"); [now left|].
  destruct (Ascii.eqb c ".").
  - right. exists (rev before). now rewrite <- app_assoc.
  - destruct (IH (c :: suffix)) as [Hnone|[stem Hstem]]; [now left|].
    right. exists stem. now rewrite <- app_assoc.
Qed.

Lemma filepath_Ext_suffix (path : string) :
  filepath_Ext path = "" \/ exists stem, path = stem +:+ filepath_Ext path.
Proof.
  unfold filepath_Ext.
  destruct (Ext_scan_suffix (rev (list_ascii_of_string path)) []) as [Hnone|[stem Hstem]].
  - left. now rewrite Hnone.
  - right. exists (string_of_list_ascii stem).
    rewrite <- string_of_list_ascii_app, <- Hstem, rev_involutive, app_nil_r.
    now rewrite string_of_list_ascii_of_string.
Qed.

Lemma allowed_extension_suffix (path : string) :
  allowed_extension path = true ->
  exists stem, path = stem +:+ ".crt" \/ path = stem +:+ ".key" \/ path = stem +:+ ".pem".
Proof.
  unfold allowed_extension. intros Hallowed.
  destruct (filepath_Ext_suffix path) as [Hnone|[stem Hstem]].
  - rewrite Hnone in Hallowed. discriminate.
  - exists stem.
    apply orb_true_iff in Hallowed as [Hallowed|Hpem].
    + apply orb_true_iff in Hallowed as [Hcrt|Hkey].
      * apply String.eqb_eq in Hcrt. left. now rewrite <- Hcrt.
      * apply String.eqb_eq in Hkey. right. left. now rewrite <- Hkey.
    + apply String.eqb_eq in Hpem. right. right. now rewrite <- Hpem.
Qed.

(** X11.  Every candidate the walk of [main] adds, whether or not the
    walk ends in an error, has a name that ends in [.crt], [.key] or
    [.pem]; the candidates given with [--file] are kept as they are,
    whatever their names. *)
Theorem walkDirs_candidates_have_allowed_suffix
    (E : Env) (recurse : bool) (dirs : list string) (s : Collected) (path : string) :
  In path (certfiles (fst (walkDirs E recurse dirs s))) ->
  In path (certfiles s)
  \/ exists stem, path = stem +:+ ".crt" \/ path = stem +:+ ".key" \/ path = stem +:+ ".pem".
Proof.
  destruct (walkDirs_appends E recurse dirs s) as (more & Hmore & Hall).
  rewrite Hmore. intros Hin. apply List.in_app_or in Hin as [Hold|Hnew]; [now left|].
  right. apply allowed_extension_suffix.
  rewrite List.Forall_forall in Hall. now apply Hall.
Qed.

Lemma walkDirs_candidates_have_allowed_suffix_witness :
  In "/certs/sub/deep.crt" [] 
  \/ exists stem, "/certs/sub/deep.crt" = stem +:+ ".crt"
                  \/ "/certs/sub/deep.crt" = stem +:+ ".key"
                  \/ "/certs/sub/deep.crt" = stem +:+ ".pem".
Proof.
  apply (walkDirs_candidates_have_allowed_suffix Sample.env false ["/certs"]
           {| certdirs := ["/certs"]; certfiles := [] |} "/certs/sub/deep.crt").
  vm_compute. right. left. reflexivity.
Defined.


(** ** More on the decoding loop *)

Section DecodeByBlocks.

Variable E : Env.

Lemma check_addKey_empty_slot (p12 : pkcs12File) (key : option PrivateKey) :
  privkey p12 = None -> check_addKey p12 key = Ok p12.
Proof.
  intros Hnil. unfold check_addKey, addKey. rewrite Hnil. now destruct key.
Qed.

Lemma decodeLoop_blocks (path : string) (p12 : pkcs12File) (Hnil : privkey p12 = None)
    (fuel : nat) :
  forall (b : bytes) (blocks : list Block) (certsBytes : bytes),
    decode_all E fuel b = Some blocks ->
    decodeLoop E path None fuel b p12 certsBytes =
      if existsb (rejected_pkcs8 E) blocks
      then Panic (private_key_parse_failure path)
      else Ok (p12, (certsBytes ++ certificate_bytes blocks)%list).
Proof.
  induction fuel as [|fuel IH]; intros b blocks certsBytes Hall; [discriminate|].
  simpl in Hall. cbn [decodeLoop].
  destruct (pem_Decode E b) as [[block|] rest].
  2:{ injection Hall as <-. simpl. now rewrite app_nil_r. }
  destruct (decode_all E fuel rest) as [tail|] eqn:Htail; [|discriminate].
  injection Hall as <-.
  specialize (IH rest tail).
  unfold certificate_bytes, rejected_pkcs8, is_certificate_block in *.
  cbn [existsb List.filter].
  destruct (String.eqb (Type_ block) "PRIVATE KEY") eqn:Hpk.
  { apply String.eqb_eq in Hpk. rewrite Hpk. simpl.
    destruct (x509_ParsePKCS8PrivateKey E (Bytes block)) as [[|key|] perr]; simpl;
      try reflexivity.
    rewrite (check_addKey_empty_slot p12 key Hnil). simpl. now apply IH. }
  destruct (String.eqb (Type_ block) "RSA PRIVATE KEY") eqn:Hrsa.
  { apply String.eqb_eq in Hrsa. rewrite Hrsa. simpl.
    destruct (x509_ParsePKCS1PrivateKey E (Bytes block)) as [key [e1|]]; simpl.
    - now apply IH.
    - rewrite (check_addKey_empty_slot p12 key Hnil). simpl. now apply IH. }
  destruct (String.eqb (Type_ block) "CERTIFICATE") eqn:Hcert; simpl.
  - rewrite (IH (certsBytes ++ Bytes block)%list Htail).
    destruct (existsb _ tail); [reflexivity|]. now rewrite <- app_assoc.
  - now apply IH.
Qed.

End DecodeByBlocks.

(** X12.  The decoding loop of one file, in one equation, on an
    aggregate whose private-key slot is empty.  If some "PRIVATE KEY"
    block does not hold an RSA key in PKCS#8 form, the loop panics with
    an error naming the file.  Otherwise it ends with the aggregate as
    it was and with the bytes of the "CERTIFICATE" blocks joined in file
    order; blocks of any other type, "RSA PRIVATE KEY" blocks that do
    not parse, and the keys that do parse leave no trace. *)
Theorem decodeLoop_by_blocks
    (E : Env) (path : string) (p12 : pkcs12File) (fuel : nat)
    (b : bytes) (blocks : list Block) (certsBytes : bytes) :
  privkey p12 = None ->
  decode_all E fuel b = Some blocks ->
  decodeLoop E path None fuel b p12 certsBytes =
    if existsb (rejected_pkcs8 E) blocks
    then Panic (private_key_parse_failure path)
    else Ok (p12, (certsBytes ++ certificate_bytes blocks)%list).
Proof. intros Hnil. now apply decodeLoop_blocks. Qed.

Lemma decodeLoop_by_blocks_witness :
  decodeLoop Sample.env "/mixed.pem" None 5
    [Byte.x03; Byte.x01; Byte.x01; Byte.xff; Byte.x09; Byte.x00; Byte.x03; Byte.x02]
    empty_p12 []
  = Ok (empty_p12, [Byte.x01; Byte.x02]).
Proof.
  rewrite (decodeLoop_by_blocks Sample.env "/mixed.pem" empty_p12 5 _
             [ {| Type_ := "CERTIFICATE"; Bytes := [Byte.x01] |};
               {| Type_ := "RSA PRIVATE KEY"; Bytes := [Byte.xff] |};
               {| Type_ := "OTHER"; Bytes := [Byte.x00] |};
               {| Type_ := "CERTIFICATE"; Bytes := [Byte.x02] |} ] []);
    reflexivity.
Defined.

(** ** The program as a whole *)

Section Program.

Variable E : Env.

(** The decoding loop hands back the aggregate it was given. *)
Lemma decodeLoop_receiver (path : string) (err : option error) (fuel : nat) :
  forall (b : bytes) (p12 p12' : pkcs12File) (certsBytes certsBytes' : bytes),
    decodeLoop E path err fuel b p12 certsBytes = Ok (p12', certsBytes') -> p12' = p12.
Proof.
  induction fuel as [|fuel IH]; intros b p12 p12' certsBytes certsBytes'; [simpl; discriminate|].
  cbn [decodeLoop].
  destruct (pem_Decode E b) as [[block|] rest]; [|simpl; now intros [= <- _]].
  assert (Hkey : forall key, check_addKey p12 key = Ok p12
                             \/ exists v, check_addKey p12 key = Panic v).
  { intros key. unfold check_addKey.
    pose proof (addKey_receiver p12 key) as Hrecv.
    destruct (addKey p12 key) as [q [e|]]; simpl in *; subst q.
    - right. now eexists.
    - now left. }
  destruct (String.eqb (Type_ block) "PRIVATE KEY").
  { destruct (x509_ParsePKCS8PrivateKey E (Bytes block)) as [[|key|] perr];
      try discriminate.
    destruct (Hkey key) as [-> | [v ->]]; simpl; [apply IH | discriminate]. }
  destruct (String.eqb (Type_ block) "RSA PRIVATE KEY").
  { destruct (x509_ParsePKCS1PrivateKey E (Bytes block)) as [key [e1|]].
    - simpl. destruct err; simpl; [discriminate | apply IH].
    - destruct (Hkey key) as [-> | [v ->]]; simpl; [|discriminate].
      destruct err; simpl; [discriminate | apply IH]. }
  destruct (String.eqb (Type_ block) "CERTIFICATE"); apply IH.
Qed.

Lemma addCertificates_privkey (path : string) (certs : list (option Certificate)) :
  forall p12 p12' : pkcs12File,
    addCertificates path certs p12 = Ok p12' -> privkey p12' = privkey p12.
Proof.
  induction certs as [|cert certs IH]; intros p12 p12'; [simpl; now intros [= <-]|].
  cbn [addCertificates].
  pose proof (addCertificate_privkey p12 cert) as Hkey.
  destruct (addCertificate p12 cert) as [q [e|]]; simpl in *; [simpl; discriminate|].
  intros Hrest. apply IH in Hrest. congruence.
Qed.

Lemma addCertificates_ends (path : string) (certs : list (option Certificate)) :
  forall p12 : pkcs12File, addCertificates path certs p12 <> OutOfFuel.
Proof.
  induction certs as [|cert certs IH]; intros p12; [simpl; discriminate|].
  cbn [addCertificates].
  destruct (addCertificate p12 cert) as [q [e|]]; simpl; [discriminate | apply IH].
Qed.

Lemma processFile_privkey (path : string) (p12 p12' : pkcs12File) :
  processFile E path p12 = Ok p12' -> privkey p12' = privkey p12.
Proof.
  unfold processFile.
  destruct (os_ReadFile E path) as [b [e|]]; [simpl; discriminate|].
  remember (decodeLoop E path None (S (length b)) b p12 []) as loop eqn:Hloop.
  symmetry in Hloop. destruct loop as [[q cb]| |]; try (simpl; discriminate).
  apply decodeLoop_receiver in Hloop. subst q. simpl.
  destruct (x509_ParseCertificates E cb) as [certs [e|]]; [simpl; discriminate|]. simpl.
  apply addCertificates_privkey.
Qed.

Lemma processFile_ends (Hdec : decode_consumes E) (path : string) (p12 : pkcs12File) :
  processFile E path p12 <> OutOfFuel.
Proof.
  unfold processFile.
  destruct (os_ReadFile E path) as [b [e|]]; [simpl; discriminate|].
  pose proof (decodeLoop_enough_fuel E Hdec path None (S (length b)) b p12 []
                (Nat.lt_succ_diag_r _)) as Hloop.
  remember (decodeLoop E path None (S (length b)) b p12 []) as loop eqn:Hdef.
  clear Hdef. destruct loop as [[q cb]| |]; [| simpl; discriminate | congruence]. simpl.
  destruct (x509_ParseCertificates E cb) as [certs [e|]]; [simpl; discriminate|]. simpl.
  apply addCertificates_ends.
Qed.

Lemma processFiles_privkey (paths : list string) :
  forall p12 p12' : pkcs12File,
    processFiles E paths p12 = Ok p12' -> privkey p12' = privkey p12.
Proof.
  induction paths as [|path rest IH]; intros p12 p12'; [simpl; now intros [= <-]|].
  cbn [processFiles].
  destruct (processFile E path p12) as [q| |] eqn:Hfile; try discriminate. simpl.
  intros Hrest. apply IH in Hrest. apply processFile_privkey in Hfile. congruence.
Qed.

Lemma processFiles_ends (Hdec : decode_consumes E) (paths : list string) :
  forall p12 : pkcs12File, processFiles E paths p12 <> OutOfFuel.
Proof.
  induction paths as [|path rest IH]; intros p12; [simpl; discriminate|].
  cbn [processFiles].
  pose proof (processFile_ends Hdec path p12) as Hfile.
  destruct (processFile E path p12) as [q| |]; simpl; [apply IH | discriminate | congruence].
Qed.

(** [main], by the outcome of its two loops. *)
Lemma main_unfold (f : Flags) (w : World) :
  flag_out f <> "" ->
  main E f w =
    let st := walkDirs E (flag_recursive f) (flag_dir f)
                {| certdirs := flag_dir f; certfiles := flag_file f |} in
    match snd st with
    | Some e => (w, Panic (PanicError e))
    | None =>
        match processFiles E (certfiles (fst st)) empty_p12 with
        | Ok p12 =>
            (fst (writeFile E p12 (flag_out f) (effective_password f) 420%N w),
             check (snd (writeFile E p12 (flag_out f) (effective_password f) 420%N w)))
        | Panic v => (w, Panic v)
        | OutOfFuel => (w, OutOfFuel)
        end
    end.
Proof.
  intros Hout. apply String.eqb_neq in Hout.
  unfold main, effective_password. rewrite Hout. simpl.
  destruct (walkDirs E _ _ _) as [st [e|]]; simpl; [reflexivity|].
  destruct (processFiles E (certfiles st) empty_p12) as [p12| |]; try reflexivity.
  now destruct (writeFile E p12 _ _ _ w).
Qed.

End Program.



Lemma Sample_decode_consumes : decode_consumes Sample.env.
Proof.
  intros b block rest. simpl. unfold Sample.decode.
  destruct b as [|tag [|body more]]; try discriminate.
  intros [= _ <-]. simpl. lia.
Qed.

(** X13.  The outside calls of a whole run, for every environment and
    every flag setting: [main] never calls [Encode], so it never builds
    a keystore; it calls [EncodeTrustStore] with the password flag, or
    with [changeit] when the flag is empty; it calls [os.WriteFile] on
    the output path only, with mode 0644; and it makes at most two
    calls. *)
Theorem main_outside_calls (E : Env) (f : Flags) (w : World) :
  Forall (main_may_call f) (calls_since w (fst (main E f w)))
  /\ length (calls_since w (fst (main E f w))) <= 2.
Proof.
  destruct (String.eqb (flag_out f) "") eqn:Hout.
  { unfold main. rewrite Hout. simpl. rewrite calls_since_refl. split; [constructor | simpl; lia]. }
  apply String.eqb_neq in Hout. rewrite (main_unfold E f w Hout). cbv zeta.
  destruct (snd (walkDirs E _ _ _)); simpl; [rewrite calls_since_refl; split; [constructor | simpl; lia]|].
  destruct (processFiles E _ empty_p12) as [p12| |] eqn:Hfiles; simpl;
    try (rewrite calls_since_refl; split; [constructor | simpl; lia]).
  apply processFiles_privkey in Hfiles. simpl in Hfiles.
  rewrite writeFile_calls, Hfiles.
  destruct (encode_trust_answer E _ _) as [payload [e|]]; simpl.
  - split; [|lia]. repeat constructor.
  - split; [|lia]. repeat constructor.
Qed.





(** X16.  With a decoder that uses up input whenever it returns a block,
    a run ends: it returns or it panics, and the bound the model puts on
    the decoding loop is never reached. *)
Theorem main_ends (E : Env) (f : Flags) (w : World) :
  decode_consumes E -> snd (main E f w) <> OutOfFuel.
Proof.
  intros Hdec.
  destruct (String.eqb (flag_out f) "") eqn:Hout.
  { unfold main. rewrite Hout. discriminate. }
  apply String.eqb_neq in Hout. rewrite (main_unfold E f w Hout). cbv zeta.
  destruct (snd (walkDirs E _ _ _)); simpl; [discriminate|].
  pose proof (processFiles_ends E Hdec
                (certfiles (fst (walkDirs E (flag_recursive f) (flag_dir f)
                   {| certdirs := flag_dir f; certfiles := flag_file f |}))) empty_p12)
    as Hfiles.
  destruct (processFiles E _ empty_p12) as [p12| |]; simpl; [|discriminate|congruence].
  now destruct (snd (writeFile E p12 _ _ _ w)).
Qed.

Lemma main_ends_witness :
  snd (main Sample.env (Sample.flags ["/certs"; "/keys"] true) empty_world) <> OutOfFuel.
Proof.
  apply (main_ends Sample.env (Sample.flags ["/certs"; "/keys"] true) empty_world).
  exact Sample_decode_consumes.
Defined.

(** X17.  The recursion flag changes nothing a run does: with the other
    flags equal, the run with [--recursive] and the run without it end
    the same way in the same world. *)
Theorem main_ignores_recursive_flag
    (E : Env) (out password : string) (dirs files : list string) (w : World) :
  main E {| flag_out := out; flag_password := password; flag_dir := dirs;
            flag_file := files; flag_recursive := false |} w
  = main E {| flag_out := out; flag_password := password; flag_dir := dirs;
              flag_file := files; flag_recursive := true |} w.
Proof.
  unfold main. cbn [flag_out flag_password flag_dir flag_file flag_recursive].
  destruct (String.eqb out ""); [reflexivity|].
  pose proof (walkDirs_recurse_irrelevant E dirs
                {| certdirs := dirs; certfiles := files |}
                {| certdirs := dirs; certfiles := files |} eq_refl) as [Hfiles Herr].
  destruct (walkDirs E false dirs _) as [st e].
  destruct (walkDirs E true dirs _) as [st' e'].
  unfold same_files in Hfiles. simpl in Hfiles, Herr. subst e'. now rewrite Hfiles.
Qed.





(** X19.  One candidate file, in one equation, on an aggregate whose
    private-key slot is empty.  A readable file panics on a "PRIVATE
    KEY" block that is not an RSA key; failing that, on certificate
    bytes that do not parse, with an error naming the file; failing
    that, it classifies the certificates parsed from the joined
    "CERTIFICATE" blocks.  Nothing else in the file has an effect. *)
Theorem processFile_by_blocks
    (E : Env) (path : string) (p12 : pkcs12File) (b : bytes) (blocks : list Block) :
  privkey p12 = None ->
  os_ReadFile E path = (b, None) ->
  decode_all E (S (length b)) b = Some blocks ->
  processFile E path p12 =
    if existsb (rejected_pkcs8 E) blocks then Panic (private_key_parse_failure path)
    else
      match x509_ParseCertificates E (certificate_bytes blocks) with
      | (_, Some e) =>
          Panic (PanicError (errors_New
            ("failed to parse certificate in " +:+ path +:+ ": " +:+ Error e)))
      | (certs, None) => addCertificates path certs p12
      end.
Proof.
  intros Hnil Hread Hblocks. unfold processFile. rewrite Hread.
  rewrite (decodeLoop_blocks E path p12 Hnil (S (length b)) b blocks [] Hblocks).
  destruct (existsb (rejected_pkcs8 E) blocks); [reflexivity|].
  simpl. now destruct (x509_ParseCertificates E _) as [certs [e|]].
Qed.

Lemma processFile_by_blocks_witness :
  processFile Sample.env "/certs/a.crt" empty_p12
  = addCertificates "/certs/a.crt" [Some Sample.rootA] empty_p12.
Proof.
  rewrite (processFile_by_blocks Sample.env "/certs/a.crt" empty_p12
             [Byte.x03; Byte.x01] [ {| Type_ := "CERTIFICATE"; Bytes := [Byte.x01] |} ]);
    reflexivity.
Defined.
